(** * datamaya: storage layer of the file manager (src/server.ts)

    A shallow embedding of the path normalizer, the root confinement
    resolver, the name sanitizer, the listing order, the share registry,
    the chunked upload coordinator and the move handlers, with the
    properties of the storage specification stated over them.

    Conventions.
    - A JavaScript string is the list of its UTF-16 code units ([list N]).
    - The server runs on a POSIX host: [path] is [path.posix] and
      [path.sep] is "/".
    - Calls into the operating system or the object store that the code
      only observes ([fs.realpath], [randomUUID], [Date.now]) are explicit
      arguments; the stores the code mutates (scratch files, S3 objects,
      multipart uploads, the share map) are explicit state. *)

From Stdlib Require Import ZArith NArith Ascii String DecimalString DecimalN Lia Sorted.
From stdpp Require Import base list gmap sets strings.

Set Default Proof Using "Type".

(* ================================================================= *)
(** ** JavaScript strings *)

Module Js.

(** A string literal of the source, as code units. *)
Definition lit (s : string) : list N :=
  map N_of_ascii (list_ascii_of_string s).

(** [s.startsWith(p)] *)
Fixpoint startsWith (s p : list N) {struct p} : bool :=
  match p, s with
  | [], _ => true
  | c :: p', d :: s' => (c =? d)%N && startsWith s' p'
  | _ :: _, [] => false
  end.

(** [s.endsWith(p)] *)
Definition endsWith (s p : list N) : bool := startsWith (rev s) (rev p).


(** ECMAScript WhiteSpace and LineTerminator code points, the set that
    [String.prototype.trim] strips. *)
Definition isWhiteSpace (c : N) : bool :=
  ((9 <=? c) && (c <=? 13) || (c =? 32) || (c =? 160) || (c =? 5760)
   || (8192 <=? c) && (c <=? 8202) || (c =? 8232) || (c =? 8233)
   || (c =? 8239) || (c =? 8287) || (c =? 12288) || (c =? 65279))%N.

Fixpoint trimStart (s : list N) : list N :=
  match s with
  | [] => []
  | c :: s' => if isWhiteSpace c then trimStart s' else s
  end.

Definition trimEnd (s : list N) : list N := rev (trimStart (rev s)).

(** [s.trim()] *)
Definition trim (s : list N) : list N := trimEnd (trimStart s).

(** [s.replace(/a/g, b)] for single characters [a] and [b]. *)
Definition replaceChar (a b : N) (s : list N) : list N :=
  map (fun c => if (c =? a)%N then b else c) s.


(** [s.slice(1)] *)
Definition slice1 (s : list N) : list N := drop 1 s.

(** [a === b] on strings. *)
Definition eqb (a b : list N) : bool := bool_decide (a = b).

(** Template literal [`${n}`] for a non-negative integer. *)
Definition ofNumber (n : N) : list N :=
  lit (NilZero.string_of_uint (N.to_uint n)).

End Js.

(* ================================================================= *)
(** ** The runtime's [path.posix] module

    Modelled after the algorithm of Node's [lib/path.js], which Bun
    follows: [normalizeString] walks the path once and keeps the result
    as a stack of segments; here the walk is over the segments that the
    separators delimit. *)

Module Posix.

Definition SLASH : N := 47.
Definition DOT : N := 46.
Definition BACKSLASH : N := 92.

(** [path.sep] *)
Definition sep : list N := [SLASH].

(** The segments between separators: [split "a//b" = ["a"; ""; "b"]]. *)
Fixpoint split (s : list N) : list (list N) :=
  match s with
  | [] => [[]]
  | c :: s' =>
      if (c =? SLASH)%N then [] :: split s'
      else match split s' with
           | seg :: rest => (c :: seg) :: rest
           | [] => [[c]]
           end
  end.

Fixpoint joinSegs (segs : list (list N)) : list N :=
  match segs with
  | [] => []
  | [seg] => seg
  | seg :: rest => seg ++ SLASH :: joinSegs rest
  end.

(** [normalizeString(path, allowAboveRoot, "/", isPosixPathSeparator)]:
    [res] is the result so far, innermost segment first. Empty and "."
    segments are dropped; ".." removes the last kept segment, is kept
    when the path may climb above its start, and is dropped otherwise. *)
Fixpoint normalizeSegs (allowAboveRoot : bool) (res segs : list (list N))
  : list (list N) :=
  match segs with
  | [] => rev res
  | seg :: rest =>
      if bool_decide (seg = []) || bool_decide (seg = [DOT]) then
        normalizeSegs allowAboveRoot res rest
      else if bool_decide (seg = [DOT; DOT]) then
        match res with
        | top :: res' =>
            if bool_decide (top = [DOT; DOT]) then
              if allowAboveRoot
              then normalizeSegs allowAboveRoot (seg :: res) rest
              else normalizeSegs allowAboveRoot res rest
            else normalizeSegs allowAboveRoot res' rest
        | [] =>
            if allowAboveRoot
            then normalizeSegs allowAboveRoot [seg] rest
            else normalizeSegs allowAboveRoot [] rest
        end
      else normalizeSegs allowAboveRoot (seg :: res) rest
  end.

Definition normalizeString (path : list N) (allowAboveRoot : bool) : list N :=
  joinSegs (normalizeSegs allowAboveRoot [] (split path)).

Definition isAbsolute (path : list N) : bool :=
  match path with
  | c :: _ => (c =? SLASH)%N
  | [] => false
  end.

(** [path.posix.normalize(path)] *)
Definition normalize (path : list N) : list N :=
  match path with
  | [] => [DOT]
  | _ :: _ =>
      let trailingSeparator := Js.endsWith path [SLASH] in
      let p := normalizeString path (negb (isAbsolute path)) in
      match p with
      | [] =>
          if isAbsolute path then [SLASH]
          else if trailingSeparator then [DOT; SLASH] else [DOT]
      | _ :: _ =>
          let p' := if trailingSeparator then p ++ [SLASH] else p in
          if isAbsolute path then SLASH :: p' else p'
      end
  end.

(** [path.posix.join(a, b)] *)
Definition join (a b : list N) : list N :=
  match a, b with
  | [], [] => [DOT]
  | [], _ => normalize b
  | _, [] => normalize a
  | _, _ => normalize (a ++ SLASH :: b)
  end.

(** [path.posix.resolve(a, b)], with the process working directory
    [cwd] (an absolute path) used when neither argument is absolute. *)
Definition resolve (cwd a b : list N) : list N :=
  let withB := match b with [] => [] | _ => b ++ [SLASH] end in
  let withA :=
    if isAbsolute b then withB
    else match a with [] => withB | _ => a ++ SLASH :: withB end in
  let all :=
    if isAbsolute b || isAbsolute a then withA
    else cwd ++ SLASH :: withA in
  SLASH :: normalizeString all false.

Fixpoint dropSlashes (s : list N) : list N :=
  match s with
  | c :: s' => if (c =? SLASH)%N then dropSlashes s' else s
  | [] => []
  end.





End Posix.

(* ================================================================= *)
(** ** Path normalizer, name sanitizer and root confinement resolver *)

Module Resolver.
Import Js Posix.

(** What a resolver throws. [RealpathFailed] stands for the error of
    [fs.realpath] (the path does not exist or cannot be resolved). *)
Inductive Failure : Type :=
  | PathNotAllowed      (* Error("Path not allowed") *)
  | PathEscapesRoot     (* Error("Path escapes root") *)
  | RealpathFailed.

Inductive Try (A : Type) : Type :=
  | Returns (a : A)
  | Throws (e : Failure).
Arguments Returns {A} a.
Arguments Throws {A} e.

Record Resolved : Type := { normalized : list N; fullPath : list N }.

(** The string [normalizeRequestPath] hands to [path.posix.normalize]:
    trimmed, "/" when missing or empty, backslashes turned into slashes,
    and a leading slash added when there is none. *)
Definition requestRaw (input : option (list N)) : list N :=
  let raw := trim (default (lit "/") input) in
  let raw := match raw with [] => lit "/" | _ :: _ => raw end in
  let raw := replaceChar BACKSLASH SLASH raw in
  if startsWith raw (lit "/") then raw else lit "/" ++ raw.

Definition normalizeRequestPath (input : option (list N)) : list N :=
  let normalized := normalize (requestRaw input) in
  if negb (startsWith normalized (lit "/")) then lit "/" else normalized.


Definition isWithinRoot (candidate rootReal : list N) : bool :=
  if eqb candidate rootReal then true
  else
    let rootWithSep :=
      if endsWith rootReal sep then rootReal else rootReal ++ sep in
    startsWith candidate rootWithSep.

(** The guard [normalized === "/.trash" || normalized.startsWith("/.trash/")]. *)
Definition isTrashPath (normalized : list N) : bool :=
  eqb normalized (lit "/.trash") || startsWith normalized (lit "/.trash/").

Section Local.
  (** [fs.realpath]: the canonical path of an existing file, symbolic
      links resolved by the operating system; [None] when it throws. *)
  Variable realpath : list N -> option (list N).
  (** The working directory of the process, for [path.resolve]. *)
  Variable cwd : list N.

Definition resolveSafePath (requestPath rootReal : list N) : Try Resolved :=
  let normalized := normalizeRequestPath (Some requestPath) in
  if isTrashPath normalized then Throws PathNotAllowed
  else
    let joined := resolve cwd rootReal (lit "." ++ normalized) in
    match realpath joined with
    | None => Throws RealpathFailed
    | Some real =>
        if negb (isWithinRoot real rootReal) then Throws PathEscapesRoot
        else Returns {| normalized := normalized; fullPath := real |}
    end.


End Local.


Definition toS3Key (rootPrefix normalizedPath : list N) : list N :=
  if eqb normalizedPath (lit "/") then rootPrefix
  else rootPrefix ++ slice1 normalizedPath.





End Resolver.

(* ================================================================= *)
(** ** HTTP responses of the handlers *)

Module Http.

(** [c.json(payload)] with status 200, [c.json({ error }, status)], or an
    exception that leaves the handler (answered by the framework with
    status 500). *)
Inductive Response (A : Type) : Type :=
  | Json (payload : A)
  | ErrorJson (status : N) (error : string)
  | Uncaught.
Arguments Json {A} payload.
Arguments ErrorJson {A} status error.
Arguments Uncaught {A}.


End Http.

(* ================================================================= *)
(** ** Directory listing order (GET /api/list and listS3Entries) *)

Module Listing.
Import Js Posix.

Inductive EntryType : Type := Dir | File.

Definition EntryType_eqb (a b : EntryType) : bool :=
  match a, b with
  | Dir, Dir | File, File => true
  | _, _ => false
  end.

Record DirEntry : Type :=
  { name : list N; type : EntryType; size : N; mtime : Z }.

(** [Array.prototype.sort(compare)]. The language requires the sort to be
    stable, so for a consistent comparator the result is the one of a
    stable insertion sort: each element is placed before the first
    element of the sorted rest that it does not follow. *)
Section ArraySort.
  Context {A : Type} (compare : A -> A -> Z).

Fixpoint insertSorted (x : A) (l : list A) : list A :=
  match l with
  | [] => [x]
  | y :: l' =>
      if (compare x y <=? 0)%Z then x :: y :: l' else y :: insertSorted x l'
  end.

Definition arraySort (l : list A) : list A := foldr insertSorted [] l.

End ArraySort.

Section Sort.
  (** [a.localeCompare(b, undefined, { sensitivity: "base" })]: the
      collator of the runtime, comparing base letters only. *)
  Variable localeCompare : list N -> list N -> Z.

(** The comparator both listings pass to [sort]. *)
Definition compareEntries (a b : DirEntry) : Z :=
  if negb (EntryType_eqb (type a) (type b)) then
    match type a with Dir => (-1)%Z | File => 1%Z end
  else localeCompare (name a) (name b).

Definition sortEntries (entries : list DirEntry) : list DirEntry :=
  arraySort compareEntries entries.

(** One [Dirent] of [fs.readdir(dir, { withFileTypes: true })] together
    with what [fs.stat] answers for it ([None] when it throws). *)
Record Dirent : Type :=
  { d_name : list N;
    d_isSymbolicLink : bool;
    d_isDirectory : bool;
    d_stat : option (bool * N * Z)  (* isFile, size, mtimeMs *) }.

Definition direntEntry (normalized : list N) (d : Dirent) : option DirEntry :=
  if d_isSymbolicLink d then None
  else if eqb normalized (lit "/") && eqb (d_name d) (lit ".trash") then None
  else
    match d_stat d with
    | None => None
    | Some (isFile, sz, mt) =>
        Some {| name := d_name d;
                type := if d_isDirectory d then Dir else File;
                size := if isFile then sz else 0%N;
                mtime := mt |}
    end.

(** The entries GET /api/list answers for a directory, before paging. *)
Definition listLocalEntries (normalized : list N) (dirents : list Dirent)
  : list DirEntry :=
  sortEntries (omap (direntEntry normalized) dirents).

(** One page of [ListObjectsV2] with [Delimiter: "/"]. *)
Record S3Item : Type :=
  { i_Key : option (list N); i_Size : option N; i_LastModified : option Z }.
Record S3Page : Type :=
  { CommonPrefixes : list (option (list N)); Contents : list S3Item }.

(** [s.replace(/\/$/, "")] *)
Definition stripOneSlash (s : list N) : list N :=
  if endsWith s [SLASH] then take (length s - 1) s else s.

Definition commonPrefixEntry (prefix normalizedPath : list N)
    (common : option (list N)) : option DirEntry :=
  match common with
  | None | Some [] => None
  | Some p =>
      let name := stripOneSlash (drop (length prefix) p) in
      match name with
      | [] => None
      | _ :: _ =>
          if eqb normalizedPath (lit "/") && eqb name (lit ".trash") then None
          else Some {| name := name; type := Dir; size := 0; mtime := 0 |}
      end
  end.

Definition contentEntry (prefix : list N) (item : S3Item) : option DirEntry :=
  match i_Key item with
  | None | Some [] => None
  | Some key =>
      if eqb key prefix then None
      else
        let name := drop (length prefix) key in
        match name with
        | [] => None
        | _ :: _ =>
            if endsWith name [SLASH] then None
            else Some {| name := name; type := File;
                         size := default 0%N (i_Size item);
                         mtime := default 0%Z (i_LastModified item) |}
        end
  end.

Definition pageEntries (prefix normalizedPath : list N) (page : S3Page)
  : list DirEntry :=
  omap (commonPrefixEntry prefix normalizedPath) (CommonPrefixes page)
  ++ omap (contentEntry prefix) (Contents page).

(** [listS3Entries], given the pages the store answers in turn. *)
Definition listS3Entries (prefix normalizedPath : list N)
    (pages : list S3Page) : list DirEntry :=
  sortEntries (concat (map (pageEntries prefix normalizedPath) pages)).

End Sort.

(** A comparison of the kind the collator makes on ASCII names: letters
    compare without case, position by position. *)
Definition foldCase (c : N) : N :=
  if ((65 <=? c) && (c <=? 90))%N then (c + 32)%N else c.

Fixpoint compareFolded (a b : list N) : Z :=
  match a, b with
  | [], [] => 0
  | [], _ :: _ => -1
  | _ :: _, [] => 1
  | x :: a', y :: b' =>
      match (foldCase x ?= foldCase y)%N with
      | Lt => -1
      | Gt => 1
      | Eq => compareFolded a' b'
      end
  end%Z.

(** Raw order of the code units of two names. *)
Fixpoint compareRaw (a b : list N) : comparison :=
  match a, b with
  | [], [] => Eq
  | [], _ :: _ => Lt
  | _ :: _, [] => Gt
  | x :: a', y :: b' =>
      match (x ?= y)%N with
      | Eq => compareRaw a' b'
      | c => c
      end
  end.

End Listing.

(* ================================================================= *)
(** ** The object store (S3 mode)

    A bucket maps object keys to their bytes. Requests to the store are
    taken to succeed unless the store itself refuses them; modification
    times are left out. *)

Module S3.
Import Js Posix Resolver.

Abbreviation Bucket := (gmap (list N) (list Byte.byte)).














End S3.

(* ================================================================= *)
(** ** Share registry *)

Module Share.
Import Js Posix Resolver Http.

Record ShareRecord : Type :=
  { token : list N; path : list N; rootReal : list N; createdAt : Z }.

(** [SHARE_MAP]: a [Map] from token to record. Every [set] of the source
    uses the record's own token as the key, so the map is kept as its
    records in insertion order. *)
Abbreviation ShareMap := (list ShareRecord).


(** [SHARE_MAP.delete(token)] *)
Definition mapDelete (tok : list N) (m : ShareMap) : ShareMap :=
  List.filter (fun r => negb (eqb (token r) tok)) m.



Definition isEmpty (s : list N) : bool :=
  match s with [] => true | _ :: _ => false end.




(** What [saveShareStore] writes to the share file: for each pair of
    root and path the newest record, at the position of the first. *)
Fixpoint dedupSet (record : ShareRecord) (deduped : ShareMap) : ShareMap :=
  match deduped with
  | [] => [record]
  | existing :: rest =>
      if eqb (rootReal existing) (rootReal record)
         && eqb (path existing) (path record)
      then (if (createdAt existing <? createdAt record)%Z
            then record else existing) :: rest
      else existing :: dedupSet record rest
  end.

Definition saveShareStore (m : ShareMap) : ShareMap :=
  foldl (fun deduped record => dedupSet record deduped) [] m.


Section Handlers.
  Variable realpath : list N -> option (list N).
  Variable cwd : list N.
  (** [(await fs.stat(p)).isFile()]; [None] when [fs.stat] throws. *)
  Variable statIsFile : list N -> option bool.



End Handlers.



End Share.

(* ================================================================= *)
(** ** The local file system seen by the upload and move handlers

    A path names a node through the segments that remain after lexical
    resolution (what the operating system does in a tree without
    symbolic links); a node is a directory or a regular file. The
    scratch file [meta.json] holds the JSON of the session's metadata,
    kept as the record that [JSON.parse] gives back, and so does the
    sidecar of a trashed item. *)

Module LocalFs.
Import Js Posix.

Record UploadMeta : Type :=
  { m_uploadId : list N;
    m_path : list N;
    m_name : list N;
    m_size : N;
    m_totalChunks : N;
    m_overwrite : bool }.

(** The JSON sidecar of a trashed item. *)
Record TrashRecord : Type :=
  { t_id : list N;
    t_name : list N;
    t_originalPath : list N;
    t_deletedAt : N;
    t_isDir : bool;
    t_size : nat;
    t_trashName : list N }.

Inductive Content : Type :=
  | Bytes (data : list Byte.byte)
  | MetaJson (meta : UploadMeta)
  | TrashJson (record : TrashRecord).

Inductive Node : Type :=
  | Directory
  | RegularFile (content : Content).

Abbreviation Fs := (gmap (list (list N)) Node).

Definition pathKey (p : list N) : list (list N) :=
  normalizeSegs false [] (split p).

(** [fs.stat(p)]; [None] when it throws. *)
Definition fsStat (fs : Fs) (p : list N) : option Node := fs !! pathKey p.

(** [pathExists] *)
Definition pathExists (fs : Fs) (p : list N) : bool :=
  match fsStat fs p with Some _ => true | None => false end.

(** [fs.readFile(p)]; [None] when it throws (no such file, or a
    directory). *)
Definition readFile (fs : Fs) (p : list N) : option Content :=
  match fs !! pathKey p with
  | Some (RegularFile c) => Some c
  | _ => None
  end.

(** Writing a whole file ([Bun.write], [fs.writeFile], or [fs.open] with
    flag "w" followed by the writes); [None] when the path names a
    directory. *)
Definition writeFile (fs : Fs) (p : list N) (c : Content) : option Fs :=
  match fs !! pathKey p with
  | Some Directory => None
  | _ => Some (<[pathKey p := RegularFile c]> fs)
  end.



(** The keys at or below a path. *)
Definition isUnder (dirKey key : list (list N)) : bool :=
  bool_decide (dirKey `prefix_of` key).

(** [fs.readdir(p)]: the names directly below a directory; [None] when
    it throws. *)
Definition readdir (fs : Fs) (p : list N) : option (list (list N)) :=
  match fs !! pathKey p with
  | Some Directory =>
      Some (omap (fun kv =>
                    match drop (length (pathKey p)) (fst kv) with
                    | [name] =>
                        if isUnder (pathKey p) (fst kv) then Some name else None
                    | _ => None
                    end)
                 (map_to_list fs))
  | _ => None
  end.

(** [fs.rm(p, { recursive: true, force: true })] *)
Definition rmRecursive (fs : Fs) (p : list N) : Fs :=
  filter (fun kv => isUnder (pathKey p) (fst kv) = false) fs.


End LocalFs.

(* ================================================================= *)
(** ** Chunked upload coordinator, local mode *)

Module Upload.
Import Js Posix Resolver Http LocalFs.

Definition isDigit (c : N) : bool := ((48 <=? c) && (c <=? 57))%N.

Fixpoint digitsValue (acc : Z) (s : list N) : Z :=
  match s with
  | c :: s' =>
      if isDigit c then digitsValue (acc * 10 + Z.of_N (c - 48)) s' else acc
  | [] => acc
  end.

(** [Number.parseInt(s, 10)]; [None] is [NaN]. *)
Definition parseInt (s : list N) : option Z :=
  let s := trimStart s in
  let '(sign, s) :=
    match s with
    | 45%N :: s' => ((-1)%Z, s')
    | 43%N :: s' => (1%Z, s')
    | _ => (1%Z, s)
    end in
  match s with
  | c :: _ => if isDigit c then Some (sign * digitsValue 0 s)%Z else None
  | [] => None
  end.

(** [name.replace(/\.part$/, "")] *)
Definition stripPartSuffix (name : list N) : list N :=
  if endsWith name (lit ".part") then take (length name - 5) name else name.

(** The file name [`${part}.part`]. *)
Definition partFileName (part : N) : list N := ofNumber part ++ lit ".part".

Section Local.
  Variable realpath : list N -> option (list N).
  Variable cwd : list N.
  (** [os.tmpdir()] *)
  Variable tmpdir : list N.

Definition UPLOAD_TMP_DIR : list N := join tmpdir (lit "bro-fm-uploads").



Definition handleLocalUploadStatus (fs : Fs) (uploadId : list N)
  : Response (list Z) :=
  let dir := join UPLOAD_TMP_DIR uploadId in
  match readdir fs dir with
  | None => ErrorJson 404 "Upload not found."
  | Some entries =>
      Json (omap (fun name => parseInt (stripPartSuffix name))
              (List.filter (fun name => endsWith name (lit ".part")) entries))
  end.


(** [handle.write(chunkData)] on the open destination. *)
Definition appendFile (fs : Fs) (p : list N) (data : list Byte.byte) : Fs :=
  match fs !! pathKey p with
  | Some (RegularFile (Bytes written)) =>
      <[pathKey p := RegularFile (Bytes (written ++ data))]> fs
  | _ => fs
  end.

(** The assembly loop of [handleLocalUploadComplete]: parts [part],
    [part + 1], ... ([count] of them) are read and written to the open
    destination in turn. [inl] is the state in which a read throws. *)
Fixpoint assemble (fs : Fs) (dir destPath : list N) (part : N) (count : nat)
  : Fs + Fs :=
  match count with
  | O => inr fs
  | S count' =>
      match readFile fs (join dir (partFileName part)) with
      | Some (Bytes chunkData) =>
          assemble (appendFile fs destPath chunkData) dir destPath
                   (part + 1) count'
      | _ => inl fs
      end
  end.

(** The 409 answer carries the file name after "File exists: ". *)
Definition handleLocalUploadComplete (fs : Fs) (rootReal uploadId : list N)
    (totalChunks : N) : Response unit * Fs :=
  let dir := join UPLOAD_TMP_DIR uploadId in
  match readFile fs (join dir (lit "meta.json")) with
  | None => (ErrorJson 404 "Upload not found.", fs)
  | Some (Bytes _) | Some (TrashJson _) => (Uncaught, fs)
  | Some (MetaJson meta) =>
      match resolveSafePath realpath cwd (m_path meta) rootReal with
      | Throws _ => (ErrorJson 404 "Path not found.", fs)
      | Returns resolved =>
          let destPath := join (fullPath resolved) (m_name meta) in
          if negb (isWithinRoot destPath rootReal)
          then (ErrorJson 400 "Invalid file path.", fs)
          else if negb (m_overwrite meta) && pathExists fs destPath
          then (ErrorJson 409 "File exists: ", fs)
          else
            (* fs.open(destPath, "w") creates or truncates the file *)
            match writeFile fs destPath (Bytes []) with
            | None => (Uncaught, fs)
            | Some opened =>
                match assemble opened dir destPath 1 (N.to_nat totalChunks) with
                | inl failed =>
                    (ErrorJson 500 "Failed to assemble upload.", failed)
                | inr assembled =>
                    (Json (), rmRecursive assembled dir)
                end
            end
      end
  end.


End Local.


(** What the browser client takes as the uploaded parts from the answer
    to its status request: the list when the response is ok, nothing
    otherwise. *)
Definition clientUploadedParts {A} (statusResponse : Response (list A)) : list A :=
  match statusResponse with
  | Json uploadedParts => uploadedParts
  | _ => []
  end.

End Upload.

(* ================================================================= *)
(** ** Chunked upload coordinator, S3 mode *)

Module UploadS3.
Import Js Posix Resolver Http.

(** A part the store holds for a multipart upload. *)
Record Part : Type := { ETag : list N; data : list Byte.byte }.

(** The store: the bucket and the multipart uploads in progress, by
    object key and upload id, each with its parts by part number. *)
Record Store : Type :=
  { bucket : S3.Bucket;
    uploads : gmap (list N * list N) (gmap N Part) }.

Section Store.
  (** The entity tag the store assigns to the bytes of a part. *)
  Variable etagOf : list Byte.byte -> list N.

(** [UploadPart]: part numbers run from 1 to 10000; [None] when the
    store refuses the request. A part sent again replaces the one held. *)
Definition uploadPart (st : Store) (key uploadId : list N) (partNumber : N)
    (body : list Byte.byte) : option Store :=
  match uploads st !! (key, uploadId) with
  | None => None
  | Some parts =>
      if ((1 <=? partNumber) && (partNumber <=? 10000))%N then
        Some {| bucket := bucket st;
                uploads :=
                  <[(key, uploadId) :=
                      <[partNumber := {| ETag := etagOf body; data := body |}]>
                        parts]> (uploads st) |}
      else None
  end.

(** [ListParts] without [MaxParts]: the first page, at most 1000 parts in
    ascending part-number order; [None] is the NoSuchUpload (404) error. *)
Definition listParts (st : Store) (key uploadId : list N)
  : option (list (N * Part)) :=
  match uploads st !! (key, uploadId) with
  | None => None
  | Some parts =>
      Some (take 1000
              (Listing.arraySort (fun a b => (Z.of_N (fst a) - Z.of_N (fst b))%Z)
                 (map_to_list parts)))
  end.

(** [CompleteMultipartUpload]: the listed parts must be held under the
    listed tags, in ascending order; the object becomes their bytes in
    that order and the upload ends. [None] when the store refuses. *)
Fixpoint gatherParts (held : gmap N Part) (last : N) (parts : list (N * list N))
  : option (list Byte.byte) :=
  match parts with
  | [] => Some []
  | (n, tag) :: rest =>
      match held !! n with
      | Some part =>
          if (last <? n)%N && eqb (ETag part) tag then
            match gatherParts held n rest with
            | Some bytes => Some (data part ++ bytes)
            | None => None
            end
          else None
      | None => None
      end
  end.

Definition completeMultipartUpload (st : Store) (key uploadId : list N)
    (parts : list (N * list N)) : option Store :=
  match uploads st !! (key, uploadId), parts with
  | Some held, _ :: _ =>
      match gatherParts held 0 parts with
      | Some bytes =>
          Some {| bucket := <[key := bytes]> (bucket st);
                  uploads := delete (key, uploadId) (uploads st) |}
      | None => None
      end
  | _, _ => None
  end.

Definition handleS3UploadStatus (st : Store) (uploadId key : list N)
  : Response (list N) :=
  match listParts st key uploadId with
  | None => ErrorJson 404 "Upload not found."
  | Some parts => Json (map fst parts)
  end.

Definition handleS3UploadChunk (st : Store) (uploadId key : list N)
    (partNumber : N) (chunk : list Byte.byte) : Response unit * Store :=
  match uploadPart st key uploadId partNumber chunk with
  | None => (Uncaught, st)
  | Some st' => (Json (), st')
  end.

Definition handleS3UploadComplete (st : Store) (uploadId key : list N)
    (totalChunks : N) : Response unit * Store :=
  match listParts st key uploadId with
  | None => (Uncaught, st)
  | Some listed =>
      let parts :=
        Listing.arraySort
          (fun a b => (Z.of_N (fst a) - Z.of_N (fst b))%Z)
          (map (fun p => (fst p, ETag (snd p)))
             (List.filter
                (fun p => negb (Share.isEmpty (ETag (snd p)))
                          && negb (fst p =? 0)%N)
                listed)) in
      if (N.of_nat (length parts) <? totalChunks)%N
      then (ErrorJson 409 "Upload incomplete.", st)
      else
        match completeMultipartUpload st key uploadId parts with
        | None => (Uncaught, st)
        | Some st' => (Json (), st')
        end
  end.

End Store.

End UploadS3.

(* ================================================================= *)
(** ** Move (POST /api/move and handleS3Move) *)

Module Move.
Import Js Posix Resolver Http LocalFs.

Section Local.
  Variable realpath : list N -> option (list N).
  Variable cwd : list N.


End Local.


End Move.

(* ================================================================= *)
(** ** Handlers that create or relocate an entry under a sanitized name *)

Module Mutations.
Import Js Posix Resolver Http LocalFs.




Section Local.
  Variable realpath : list N -> option (list N).
  Variable cwd : list N.






End Local.


End Mutations.

(* ================================================================= *)
(** ** Sample states for the concrete runs *)

Module Samples.
Import Js Posix LocalFs.

(** A tree without symbolic links in which every path asked for exists:
    [fs.realpath] answers the path it is given. *)
Definition plainRealpath (p : list N) : option (list N) := Some p.

Definition bytes (s : string) : list Byte.byte := list_byte_of_string s.

(** The metadata of an upload of "a.bin" in two parts into the root. *)
Definition sampleMeta (overwrite : bool) : UploadMeta :=
  {| m_uploadId := lit "u1";
     m_path := lit "/";
     m_name := lit "a.bin";
     m_size := 5;
     m_totalChunks := 2;
     m_overwrite := overwrite |}.

(** The served root "/srv/files" and the scratch directory of upload
    "u1" below "/tmp", as upload init leaves them. *)
Definition sessionFs (overwrite : bool) : Fs :=
  <[pathKey (lit "/srv/files") := Directory]>
    (<[pathKey (lit "/tmp/bro-fm-uploads/u1") := Directory]>
       (<[pathKey (lit "/tmp/bro-fm-uploads/u1/meta.json")
          := RegularFile (MetaJson (sampleMeta overwrite))]> ∅)).

(** The same session when "a.bin" already exists and only part 1 has
    arrived. *)
Definition partialFs : Fs :=
  <[pathKey (lit "/srv/files/a.bin") := RegularFile (Bytes (bytes "old"))]>
    (<[pathKey (lit "/tmp/bro-fm-uploads/u1/1.part")
       := RegularFile (Bytes (bytes "he"))]> (sessionFs true)).




End Samples.

(* ================================================================= *)
(** ** Predicates of the specification *)

Module Spec.
Import Js Posix.

(** A path segment that lexical normalization keeps as it is: not
    empty, not "." or "..", and without a separator. *)
Definition cleanSegment (seg : list N) : Prop :=
  seg <> [] /\ seg <> [DOT] /\ seg <> [DOT; DOT] /\ ~ In SLASH seg.

(** The VirtualPath of the data model, and the form of a canonical
    absolute path: "/" followed by clean segments, no trailing
    separator. *)
Definition VirtualPath (p : list N) : Prop :=
  exists segs, Forall cleanSegment segs /\ p = SLASH :: joinSegs segs.



(** A comparator that [Array.prototype.sort] can rely on: the signs of
    the two directions are opposite, and "not after" is transitive. *)
Record ConsistentCompare {A : Type} (compare : A -> A -> Z) : Prop :=
  { compare_antisym : forall a b,
      Z.sgn (compare b a) = (- Z.sgn (compare a b))%Z;
    compare_trans : forall a b c,
      (compare a b <= 0)%Z -> (compare b c <= 0)%Z -> (compare a c <= 0)%Z }.



End Spec.

(* ================================================================= *)
(** * Properties *)


(* ----------------------------------------------------------------- *)
(** ** Strings *)

Section StringFacts.
Import Js.

Lemma eqb_true (a b : list N) : eqb a b = true <-> a = b.
Proof. unfold eqb. apply bool_decide_eq_true. Qed.

Lemma eqb_false (a b : list N) : eqb a b = false <-> a <> b.
Proof. unfold eqb. apply bool_decide_eq_false. Qed.

Lemma startsWith_prefix (s p : list N) :
  startsWith s p = true <-> exists t, s = p ++ t.
Proof.
  revert s. induction p as [|c p IH]; intros s; simpl.
  - split; [intros _; by exists s | intros _; by destruct s].
  - destruct s as [|d s].
    + split; [discriminate | intros [t Ht]; discriminate].
    + rewrite andb_true_iff, N.eqb_eq, IH. split.
      * intros [-> [t ->]]. eauto.
      * intros [t Ht]. injection Ht as -> ->. eauto.
Qed.

Lemma startsWith_app (p t : list N) : startsWith (p ++ t) p = true.
Proof. apply startsWith_prefix. eauto. Qed.

Lemma endsWith_suffix (s p : list N) :
  endsWith s p = true <-> exists t, s = t ++ p.
Proof.
  unfold endsWith. rewrite startsWith_prefix. split.
  - intros [t Ht]. exists (rev t).
    rewrite <- (rev_involutive s), Ht, rev_app_distr, rev_involutive. done.
  - intros [t ->]. exists (rev t). by rewrite rev_app_distr.
Qed.



End StringFacts.

(* ----------------------------------------------------------------- *)
(** ** Segments of a path and their normalization *)

Section PathSegments.
Import Js Posix Spec.


Lemma split_no_slash (s : list N) : Forall (fun seg => ~ In SLASH seg) (split s).
Proof.
  induction s as [|c s IH]; simpl.
  - constructor; [intros [] | constructor].
  - destruct (c =? SLASH)%N eqn:Hc.
    + constructor; [intros [] | done].
    + assert (c <> SLASH) as Hne by (intros ->; by rewrite N.eqb_refl in Hc).
      destruct (split s) as [|seg rest].
      * constructor; [|done]. intros [? | []]. by subst.
      * inversion IH; subst. constructor; [|done].
        intros [? | ?]; [by subst | done].
Qed.






Lemma normalizeSegs_false_clean (res segs : list (list N)) :
  Forall cleanSegment res ->
  Forall (fun seg => ~ In SLASH seg) segs ->
  Forall cleanSegment (normalizeSegs false res segs).
Proof.
  revert res. induction segs as [|seg segs IH]; intros res Hres Hsegs; simpl.
  - by apply Forall_rev.
  - inversion Hsegs as [|? ? Hseg Hrest]; subst.
    destruct (bool_decide (seg = [])) eqn:E1; simpl; [by apply IH |].
    destruct (bool_decide (seg = [DOT])) eqn:E2; simpl; [by apply IH |].
    destruct (bool_decide (seg = [DOT; DOT])) eqn:E3.
    + destruct res as [|top res']; [by apply IH |].
      inversion Hres; subst.
      destruct (bool_decide (top = [DOT; DOT])); by apply IH.
    + apply IH; [|done]. constructor; [|done].
      apply bool_decide_eq_false in E1, E2, E3. done.
Qed.

End PathSegments.

Section Normalize.
Import Js Posix Resolver Spec.

Lemma lit_slash : lit "/" = [SLASH].
Proof. reflexivity. Qed.

Lemma normalizeSegs_Forall (P : list N -> Prop) (a : bool) (res segs : list (list N)) :
  Forall P res -> Forall P segs -> Forall P (normalizeSegs a res segs).
Proof.
  revert res. induction segs as [|seg segs IH]; intros res Hres Hsegs; simpl.
  - by apply Forall_rev.
  - inversion Hsegs; subst.
    repeat case_match; subst; apply IH; try done;
      try (by constructor); by inversion Hres.
Qed.

Lemma split_chars (P : N -> Prop) (s : list N) :
  Forall P s -> Forall (Forall P) (split s).
Proof.
  induction s as [|c s IH]; intros H; simpl.
  - by repeat constructor.
  - inversion H; subst. specialize (IH ltac:(done)).
    destruct (c =? SLASH)%N; [by constructor |].
    destruct (split s) as [|seg rest]; [by repeat constructor |].
    inversion IH; subst. constructor; [by constructor | done].
Qed.

Lemma joinSegs_nil (segs : list (list N)) :
  Forall cleanSegment segs -> joinSegs segs = [] -> segs = [].
Proof.
  destruct segs as [|seg segs]; [done |]. intros Hall.
  inversion Hall as [|? ? (H1 & _) _]; subst. simpl.
  destruct segs; destruct seg; done.
Qed.

(** On an absolute path [normalize] answers "/" followed by the kept
    segments, and keeps one trailing separator. *)
Lemma normalize_absolute (p : list N) :
  isAbsolute p = true ->
  let segs := normalizeSegs false [] (split p) in
  normalize p
  = SLASH :: joinSegs segs
    ++ (if endsWith p [SLASH] && bool_decide (segs <> []) then [SLASH] else []).
Proof.
  intros Habs segs. unfold normalize, normalizeString.
  destruct p as [|c p]; [done |]. rewrite Habs. simpl negb. fold segs.
  assert (Forall cleanSegment segs) as Hclean.
  { apply normalizeSegs_false_clean; [constructor | apply split_no_slash]. }
  destruct (joinSegs segs) as [|x xs] eqn:Hj.
  - apply joinSegs_nil in Hj; [|done]. rewrite Hj.
    rewrite bool_decide_eq_false_2 by (intros H; by apply H).
    by rewrite andb_false_r.
  - assert (segs <> []) as Hne by (intros E; by rewrite E in Hj).
    rewrite (bool_decide_eq_true_2 _ Hne), andb_true_r.
    destruct (endsWith (c :: p) [SLASH]); [done | by rewrite app_nil_r].
Qed.

Lemma isAbsolute_startsWith (p : list N) :
  isAbsolute p = startsWith p (lit "/").
Proof.
  rewrite lit_slash. destruct p as [|c p]; simpl; [done |].
  rewrite andb_true_r. apply N.eqb_sym.
Qed.

Lemma requestRaw_absolute (input : option (list N)) :
  isAbsolute (requestRaw input) = true.
Proof.
  unfold requestRaw. rewrite isAbsolute_startsWith.
  set (raw := replaceChar BACKSLASH SLASH _).
  destruct (startsWith raw (lit "/")) eqn:E; [done |].
  apply startsWith_app.
Qed.

Lemma replaceChar_not_In (a b : N) (s : list N) :
  a <> b -> ~ In a (replaceChar a b s).
Proof.
  intros Hab. unfold replaceChar. rewrite in_map_iff. intros [c [Hc _]].
  destruct (c =? a)%N eqn:E; [congruence |].
  apply N.eqb_neq in E. congruence.
Qed.

Lemma requestRaw_no_backslash (input : option (list N)) :
  ~ In BACKSLASH (requestRaw input).
Proof.
  unfold requestRaw.
  set (raw := replaceChar BACKSLASH SLASH _).
  assert (~ In BACKSLASH raw) as H by (by apply replaceChar_not_In).
  destruct (startsWith raw (lit "/")); [done |].
  rewrite lit_slash. simpl. intros [E | E]; [done | by apply H].
Qed.

Lemma joinSegs_In (c : N) (segs : list (list N)) :
  In c (joinSegs segs) -> c = SLASH \/ exists seg, In seg segs /\ In c seg.
Proof.
  induction segs as [|seg segs IH]; simpl; [done |].
  destruct segs as [|seg' segs].
  - intros H. right. exists seg. auto.
  - rewrite in_app_iff. simpl. intros [H | [H | H]].
    + right. exists seg. auto.
    + by left.
    + destruct (IH H) as [? | [s [Hs Hc]]]; [by left |].
      right. exists s. auto.
Qed.

End Normalize.

(* ----------------------------------------------------------------- *)
(** ** The path normalizer *)

Section Normalizer.
Import Js Posix Resolver Spec.

Lemma endsWith_last (s : list N) (c : N) :
  endsWith s [c] = true <-> last s = Some c.
Proof.
  rewrite endsWith_suffix. split.
  - intros [t ->]. apply last_snoc.
  - intros H. apply last_Some in H as [t ->]. eauto.
Qed.

Lemma endsWith_last_false (s : list N) (c : N) :
  endsWith s [c] = false <-> last s <> Some c.
Proof.
  rewrite <- endsWith_last. by destruct (endsWith s [c]).
Qed.

Lemma last_segment (seg : list N) :
  seg <> [] -> ~ In SLASH seg -> exists c, last seg = Some c /\ c <> SLASH.
Proof.
  intros Hne Hno. destruct (last seg) as [c|] eqn:E.
  - exists c. split; [done |]. intros ->.
    apply last_Some_elem_of in E. by apply list_elem_of_In in E.
  - by apply last_None in E.
Qed.

Lemma last_joinSegs (segs : list (list N)) :
  Forall cleanSegment segs -> last (joinSegs segs) <> Some SLASH.
Proof.
  induction segs as [|seg segs IH]; [done |]. intros Hall.
  inversion Hall as [|? ? (H1 & _ & _ & H4) Hrest]; subst.
  destruct segs as [|seg' segs].
  - simpl. destruct (last_segment seg H1 H4) as [c [-> Hc]]. congruence.
  - change (joinSegs (seg :: seg' :: segs))
      with (seg ++ SLASH :: joinSegs (seg' :: segs)).
    rewrite last_app, last_cons.
    specialize (IH Hrest).
    destruct (last (joinSegs (seg' :: segs))) as [c|] eqn:E; [done |].
    apply last_None in E. apply joinSegs_nil in E; done.
Qed.

Lemma VirtualPath_no_trailing_slash (p : list N) :
  VirtualPath p -> p = [SLASH] \/ endsWith p [SLASH] = false.
Proof.
  intros [segs [Hclean ->]]. destruct segs as [|seg segs]; [by left |].
  right. apply endsWith_last_false. rewrite last_cons.
  pose proof (last_joinSegs _ Hclean) as H.
  destruct (last (joinSegs (seg :: segs))) as [c|] eqn:E; [done |].
  apply last_None in E. apply joinSegs_nil in E; done.
Qed.

Lemma normalizeRequestPath_eq (input : option (list N)) :
  let segs := normalizeSegs false [] (split (requestRaw input)) in
  normalizeRequestPath input
  = SLASH :: joinSegs segs
    ++ (if endsWith (requestRaw input) [SLASH] && bool_decide (segs <> [])
        then [SLASH] else []).
Proof.
  intros segs. unfold normalizeRequestPath.
  rewrite (normalize_absolute _ (requestRaw_absolute input)). fold segs.
  by rewrite lit_slash.
Qed.

Lemma normalizeRequestPath_startsWith (input : option (list N)) :
  startsWith (normalizeRequestPath input) (lit "/") = true.
Proof.
  rewrite normalizeRequestPath_eq, lit_slash. apply (startsWith_app [SLASH]).
Qed.

(** C4 (as amended). [normalizeRequestPath] is total and its result is
    "/" followed by the segments that normalization keeps, joined by
    "/": no kept segment is empty, "." or "..", none contains a slash or
    a backslash (excess ".." is absorbed at the root). The result starts
    with "/" and contains no backslash. A trailing separator of the
    input is kept when at least one segment remains, so the result may
    end in "/" without being the root. *)
Theorem normalizeRequestPath_shape (input : option (list N)) :
  let segs := normalizeSegs false [] (split (requestRaw input)) in
  Forall (fun seg => cleanSegment seg /\ ~ In BACKSLASH seg) segs
  /\ normalizeRequestPath input
     = SLASH :: joinSegs segs
       ++ (if endsWith (requestRaw input) [SLASH] && bool_decide (segs <> [])
           then [SLASH] else [])
  /\ startsWith (normalizeRequestPath input) (lit "/") = true
  /\ ~ In BACKSLASH (normalizeRequestPath input).
Proof.
  intros segs.
  assert (Forall cleanSegment segs) as Hclean.
  { apply normalizeSegs_false_clean; [constructor | apply split_no_slash]. }
  assert (Forall (fun seg => ~ In BACKSLASH seg) segs) as Hback.
  { pose proof (requestRaw_no_backslash input) as Hraw.
    assert (Forall (fun c => c <> BACKSLASH) (requestRaw input)) as Hall.
    { apply List.Forall_forall. intros c Hc ->. done. }
    apply (split_chars _ _) in Hall.
    apply normalizeSegs_Forall; [constructor |].
    eapply Forall_impl; [exact Hall |]. intros seg Hseg Hin.
    rewrite List.Forall_forall in Hseg. by apply (Hseg _ Hin). }
  pose proof (normalizeRequestPath_eq input) as Heq. simpl in Heq. fold segs in Heq.
  split; [|split; [done | split]].
  - apply Forall_and. done.
  - apply normalizeRequestPath_startsWith.
  - rewrite Heq. intros [E | Hin]; [done |].
    apply in_app_iff in Hin as [Hin | Hin].
    + apply joinSegs_In in Hin as [E | [seg [Hseg Hc]]]; [done |].
      rewrite List.Forall_forall in Hback. by apply (Hback seg).
    + destruct (_ && _); [|done]. by destruct Hin as [E | []].
Qed.

(** The input "/docs/" normalizes to "/docs/", which is not a
    VirtualPath: it ends in a separator and is not the root. *)
Lemma normalizeRequestPath_keeps_trailing_slash :
  normalizeRequestPath (Some (lit "/docs/")) = lit "/docs/"
  /\ ~ VirtualPath (normalizeRequestPath (Some (lit "/docs/"))).
Proof.
  split; [by vm_compute |]. intros H.
  apply VirtualPath_no_trailing_slash in H as [H | H]; by vm_compute in H.
Qed.

End Normalizer.

(* ----------------------------------------------------------------- *)
(** ** Root confinement and the trash rule *)

Section Confinement.
Import Js Posix Resolver Spec.




Lemma isWithinRoot_spec (candidate root : list N) :
  isWithinRoot candidate root = true <->
  candidate = root
  \/ (exists rest, candidate = root ++ sep ++ rest)
  \/ (endsWith root sep = true /\ exists rest, candidate = root ++ rest).
Proof.
  unfold isWithinRoot.
  destruct (eqb candidate root) eqn:E.
  - apply eqb_true in E. by split; [left |].
  - apply eqb_false in E.
    destruct (endsWith root sep) eqn:Hsep; rewrite startsWith_prefix.
    + split; [intros H; right; right; done |].
      intros [? | [[rest ->] | [_ H]]]; [done | | done].
      exists (sep ++ rest). done.
    + split.
      * intros [rest ->]. right. left. exists rest. by rewrite <- app_assoc.
      * intros [? | [[rest ->] | [? _]]]; [done | | done].
        exists rest. by rewrite <- app_assoc.
Qed.

(** C1 (as amended). When [resolveSafePath] succeeds, the location it
    returns is what [fs.realpath] answers for the joined path (symbolic
    links are resolved before the containment check), and it is the
    root, or begins with the root followed by the separator, or, when
    the root itself ends with the separator, begins with the root. In
    S3 mode every key that [toS3Key] builds begins with the root
    prefix. *)
Theorem resolveSafePath_within_root
    (realpath : list N -> option (list N)) (cwd requestPath root : list N)
    (resolved : Resolved) :
  resolveSafePath realpath cwd requestPath root = Returns resolved ->
  realpath (resolve cwd root (lit "." ++ normalized resolved))
    = Some (fullPath resolved)
  /\ (fullPath resolved = root
      \/ (exists rest, fullPath resolved = root ++ sep ++ rest)
      \/ (endsWith root sep = true
          /\ exists rest, fullPath resolved = root ++ rest))
  /\ forall normalizedPath,
       startsWith (toS3Key root normalizedPath) root = true.
Proof.
  unfold resolveSafePath. intros H.
  destruct (isTrashPath _); [done |].
  destruct (realpath _) as [real|] eqn:Hreal; [|done].
  destruct (isWithinRoot real root) eqn:Hin; [|done].
  simpl in H. injection H as <-. simpl.
  split; [done |]. split; [by apply isWithinRoot_spec |].
  intros normalizedPath. unfold toS3Key.
  destruct (eqb normalizedPath (lit "/")).
  - apply startsWith_prefix. exists []. by rewrite app_nil_r.
  - apply startsWith_app.
Qed.

Lemma resolveSafePath_within_root_witness :
  exists resolved,
    resolveSafePath (fun p => Some p) (lit "/") (lit "/docs/../a.txt")
      (lit "/srv/files") = Returns resolved
    /\ fullPath resolved = lit "/srv/files/a.txt"
    /\ (fullPath resolved = lit "/srv/files"
        \/ (exists rest, fullPath resolved = lit "/srv/files" ++ sep ++ rest)
        \/ (endsWith (lit "/srv/files") sep = true
            /\ exists rest, fullPath resolved = lit "/srv/files" ++ rest)).
Proof.
  eexists. split; [vm_compute; reflexivity |]. split; [reflexivity |].
  eapply (resolveSafePath_within_root (fun p => Some p) (lit "/")
            (lit "/docs/../a.txt")).
  vm_compute. reflexivity.
Defined.

(** With the file-system root as the confined root, a location below it
    is accepted although it does not begin with the root followed by a
    separator. *)
Lemma resolveSafePath_root_slash :
  resolveSafePath (fun p => Some p) (lit "/") (lit "/etc") (lit "/")
    = Returns {| normalized := lit "/etc"; fullPath := lit "/etc" |}
  /\ lit "/etc" <> lit "/"
  /\ startsWith (lit "/etc") (lit "/" ++ sep) = false.
Proof. by vm_compute. Qed.



End Confinement.

(* ----------------------------------------------------------------- *)
(** ** Joining a name to a directory *)

Section JoinedPaths.
Import Js Posix Resolver LocalFs Spec.









Lemma dropSlashes_head (c : N) (s : list N) :
  c <> SLASH -> dropSlashes (c :: s) = c :: s.
Proof. intros H. simpl. by apply N.eqb_neq in H as ->. Qed.











End JoinedPaths.

(* ----------------------------------------------------------------- *)
(** ** Sanitized names *)

Section SanitizedNames.
Import Js Posix Resolver LocalFs Spec Http Mutations.





Section Handlers.
  Variable realpath : list N -> option (list N).
  Variable cwd : list N.
  (** [fs.realpath] answers absolute paths. *)
  Hypothesis realpath_absolute :
    forall p real, realpath p = Some real -> isAbsolute real = true.




End Handlers.

End SanitizedNames.

(* ----------------------------------------------------------------- *)
(** ** Part file names *)

Section PartNames.
Import Js Posix Resolver LocalFs Spec Http Upload.







Lemma isDigit_not (c x : N) :
  isDigit c = true -> isDigit x = false -> c <> x.
Proof. intros H1 H2 ->. congruence. Qed.





End PartNames.

(* ----------------------------------------------------------------- *)
(** ** Trash names *)

Section TrashNames.
Import Js Posix Resolver LocalFs Spec Http Upload Mutations.




Section Handlers.
  Variable realpath : list N -> option (list N).
  Variable cwd : list N.



End Handlers.

End TrashNames.

Section SingleSegment.
Import Js Posix Resolver LocalFs Spec Http Upload Mutations.



End SingleSegment.


(* ----------------------------------------------------------------- *)
(** ** Chunked upload, local mode *)

Section UploadSession.
Import Js Posix Resolver LocalFs Spec Http Upload.


Lemma bro_fm_uploads_clean : cleanSegment (lit "bro-fm-uploads").
Proof.
  repeat split; try (by vm_compute). vm_compute. intuition discriminate.
Qed.


Section Session.
  Variable realpath : list N -> option (list N).
  Variable cwd : list N.
  Variable tmpdir : list N.
  Hypothesis tmpdir_absolute : isAbsolute tmpdir = true.
  Variable uploadId : list N.

Let dir := join (UPLOAD_TMP_DIR tmpdir) uploadId.
Let dirKey := pathKey dir.











End Session.

End UploadSession.

Section UploadOrder.
Import Js Posix Resolver LocalFs Spec Http Upload.


End UploadOrder.

Section UploadOrderRun.
Import Js Posix Resolver LocalFs Spec Http Upload Samples.


End UploadOrderRun.

(* ----------------------------------------------------------------- *)
(** ** Incomplete and unknown uploads *)

Section UploadRefusals.
Import Js Posix Resolver LocalFs Spec Http Upload UploadS3 Samples.

Lemma insertSorted_length {A} (compare : A -> A -> Z) (x : A) (l : list A) :
  length (Listing.insertSorted compare x l) = S (length l).
Proof.
  induction l as [|y l IH]; simpl; [done |].
  destruct (compare x y <=? 0)%Z; simpl; by rewrite ?IH.
Qed.

Lemma arraySort_length {A} (compare : A -> A -> Z) (l : list A) :
  length (Listing.arraySort compare l) = length l.
Proof.
  induction l as [|x l IH]; simpl; [done |].
  by rewrite insertSorted_length, IH.
Qed.

(** In S3 mode upload complete refuses an upload that holds fewer parts
    than the request names, and leaves the store as it is. *)
Lemma handleS3UploadComplete_incomplete (st : Store) (uploadId key : list N)
    (totalChunks : N) (held : gmap N Part) :
  uploads st !! (key, uploadId) = Some held ->
  (N.of_nat (size held) < totalChunks)%N ->
  handleS3UploadComplete st uploadId key totalChunks
  = (ErrorJson 409 "Upload incomplete.", st).
Proof.
  intros Hheld Hfew. unfold handleS3UploadComplete, listParts. rewrite Hheld.
  match goal with
  | |- (if (N.of_nat (length ?parts) <? _)%N then _ else _) = _ =>
      assert (length parts <= size held) as Hlen
  end.
  { rewrite arraySort_length, length_map.
    etransitivity; [apply List.filter_length_le |].
    rewrite length_take, arraySort_length, length_map_to_list. lia. }
  match goal with
  | |- (if ?c then _ else _) = _ => assert (c = true) as ->; [|done]
  end.
  apply N.ltb_lt. lia.
Qed.

(** C2, the failing run in local mode: upload complete for two parts
    when only part 1 has arrived answers 500 "Failed to assemble upload."
    and leaves the existing destination replaced by the bytes of part 1. *)
Lemma handleLocalUploadComplete_incomplete :
  let run :=
    handleLocalUploadComplete plainRealpath (lit "/") (lit "/tmp") partialFs
      (lit "/srv/files") (lit "u1") 2 in
  handleLocalUploadStatus (lit "/tmp") partialFs (lit "u1") = Json [1%Z]
  /\ readFile partialFs (lit "/srv/files/a.bin") = Some (Bytes (bytes "old"))
  /\ fst run = ErrorJson 500 "Failed to assemble upload."
  /\ readFile (snd run) (lit "/srv/files/a.bin") = Some (Bytes (bytes "he")).
Proof. by vm_compute. Qed.

(** C7 (as amended). A status request for an upload whose state is
    missing is answered 404 "Upload not found." in both modes; the
    client takes a failed status request as no part uploaded. *)
Theorem upload_status_missing (tmpdir uploadId key : list N) (fs : Fs)
    (st : Store) :
  (fs !! pathKey (join (UPLOAD_TMP_DIR tmpdir) uploadId) <> Some Directory ->
     handleLocalUploadStatus tmpdir fs uploadId
       = ErrorJson 404 "Upload not found."
     /\ clientUploadedParts (handleLocalUploadStatus tmpdir fs uploadId) = [])
  /\ (uploads st !! (key, uploadId) = None ->
        handleS3UploadStatus st uploadId key = ErrorJson 404 "Upload not found."
        /\ clientUploadedParts (handleS3UploadStatus st uploadId key) = []).
Proof.
  split.
  - intros Hmissing. unfold handleLocalUploadStatus, readdir.
    by destruct (fs !! _) as [[|c]|].
  - intros Hmissing. unfold handleS3UploadStatus, listParts.
    by rewrite Hmissing.
Qed.

Lemma upload_status_missing_witness :
  (∅ : Fs) !! pathKey (join (UPLOAD_TMP_DIR (lit "/tmp")) (lit "gone"))
    <> Some Directory
  /\ handleLocalUploadStatus (lit "/tmp") ∅ (lit "gone")
     = ErrorJson 404 "Upload not found."
  /\ handleS3UploadStatus {| bucket := ∅; uploads := ∅ |} (lit "gone")
       (lit "docs/a.bin") = ErrorJson 404 "Upload not found.".
Proof.
  assert ((∅ : Fs) !! pathKey (join (UPLOAD_TMP_DIR (lit "/tmp")) (lit "gone"))
          <> Some Directory) as H by (by vm_compute).
  destruct (upload_status_missing (lit "/tmp") (lit "gone") (lit "docs/a.bin")
              ∅ {| bucket := ∅; uploads := ∅ |}) as [Hl Hs].
  split; [exact H |]. split; [apply (Hl H) | by apply Hs].
Defined.

(** A status request for an unknown upload fails; it does not answer an
    empty list of parts. *)
Lemma upload_status_unknown_fails :
  handleLocalUploadStatus (lit "/tmp") ∅ (lit "gone") <> Json []
  /\ handleS3UploadStatus {| bucket := ∅; uploads := ∅ |} (lit "gone")
       (lit "docs/a.bin") <> Json [].
Proof. by vm_compute. Qed.

End UploadRefusals.


(* ----------------------------------------------------------------- *)
(** ** Share registry *)

Section ShareLookup.
Import Js Posix Resolver Spec Http Share.

Lemma isEmpty_true (s : list N) : isEmpty s = true <-> s = [].
Proof. by destruct s. Qed.











End ShareLookup.

Section ShareStore.
Import Js Posix Resolver Spec Http Share.







End ShareStore.

Section ShareTokens.
Import Js Posix Resolver Spec Http Share.


End ShareTokens.


Section ShareTokensRun.
Import Js Posix Resolver Spec Http Share Samples.


End ShareTokensRun.

(* ----------------------------------------------------------------- *)
(** ** Move below the source *)

Section MoveIntoItself.
Import Js Posix Resolver LocalFs Spec Http Move Samples.






End MoveIntoItself.


(* ----------------------------------------------------------------- *)
(** ** Stable sort and the listing order *)

Section StableSort.
Import Spec Listing.
Context {A : Type} (compare : A -> A -> Z).
Hypothesis consistent : ConsistentCompare compare.

Lemma insertSorted_Permutation (x : A) (l : list A) :
  insertSorted compare x l ≡ₚ x :: l.
Proof.
  induction l as [|y l IH]; simpl; [done |].
  destruct (compare x y <=? 0)%Z; [done |].
  rewrite IH. apply Permutation_swap.
Qed.

Lemma arraySort_Permutation (l : list A) : arraySort compare l ≡ₚ l.
Proof.
  induction l as [|x l IH]; simpl; [done |].
  by rewrite insertSorted_Permutation, IH.
Qed.

Lemma compare_after (a b : A) :
  (0 < compare a b)%Z -> (compare b a <= 0)%Z.
Proof using consistent.
  intros H. pose proof (compare_antisym compare consistent a b) as Hs. lia.
Qed.

Lemma compare_equal_sym (a b : A) : compare a b = 0%Z -> compare b a = 0%Z.
Proof using consistent.
  intros H. pose proof (compare_antisym compare consistent a b) as Hs. lia.
Qed.

Lemma compare_equal_trans (a b c : A) :
  compare a b = 0%Z -> compare b c = 0%Z -> compare a c = 0%Z.
Proof using consistent.
  intros Hab Hbc.
  pose proof (compare_trans compare consistent a b c) as H1.
  pose proof (compare_trans compare consistent c b a) as H2.
  pose proof (compare_equal_sym _ _ Hab). pose proof (compare_equal_sym _ _ Hbc).
  pose proof (compare_antisym compare consistent a c) as Hs. lia.
Qed.

Lemma insertSorted_sorted (x : A) (l : list A) :
  StronglySorted (fun a b => (compare a b <= 0)%Z) l ->
  StronglySorted (fun a b => (compare a b <= 0)%Z) (insertSorted compare x l).
Proof using consistent.
  induction l as [|y l IH]; intros Hl; simpl.
  - by repeat constructor.
  - inversion Hl as [|? ? Hsorted Hall]; subst.
    destruct (compare x y <=? 0)%Z eqn:E.
    + apply Z.leb_le in E. constructor; [done |]. constructor; [done |].
      eapply Forall_impl; [exact Hall |]. intros z Hz. simpl in Hz.
      by apply (compare_trans compare consistent x y z).
    + apply Z.leb_gt in E. constructor; [by apply IH |].
      rewrite insertSorted_Permutation. constructor; [|done].
      by apply compare_after.
Qed.

Lemma arraySort_sorted (l : list A) :
  StronglySorted (fun a b => (compare a b <= 0)%Z) (arraySort compare l).
Proof using consistent.
  induction l as [|x l IH]; simpl; [constructor | by apply insertSorted_sorted].
Qed.

(** Stability: the elements that compare equal to [x] keep the order
    in which they came. *)
Lemma insertSorted_stable (x a : A) (l : list A) :
  List.filter (fun y => (compare x y =? 0)%Z) (insertSorted compare a l)
  = List.filter (fun y => (compare x y =? 0)%Z) (a :: l).
Proof using consistent.
  induction l as [|y l IH]; [done |]. simpl insertSorted.
  destruct (compare a y <=? 0)%Z eqn:E; [done |].
  apply Z.leb_gt in E. simpl in *. rewrite IH.
  destruct (compare x a =? 0)%Z eqn:Ha; [|done].
  destruct (compare x y =? 0)%Z eqn:Hy; [|done].
  apply Z.eqb_eq in Ha, Hy.
  pose proof (compare_equal_trans _ _ _ (compare_equal_sym _ _ Ha) Hy). lia.
Qed.

Lemma arraySort_stable (x : A) (l : list A) :
  List.filter (fun y => (compare x y =? 0)%Z) (arraySort compare l)
  = List.filter (fun y => (compare x y =? 0)%Z) l.
Proof using consistent.
  induction l as [|a l IH]; [done |]. simpl arraySort.
  rewrite insertSorted_stable. simpl. by rewrite IH.
Qed.

End StableSort.

Section ListingOrder.
Import Js Spec Listing.

Lemma compareEntries_consistent (localeCompare : list N -> list N -> Z) :
  ConsistentCompare localeCompare ->
  ConsistentCompare (compareEntries localeCompare).
Proof.
  intros [Hanti Htrans]. split.
  - intros a b. unfold compareEntries.
    destruct (type a), (type b); simpl; done || apply Hanti.
  - intros a b c. unfold compareEntries.
    destruct (type a), (type b), (type c); simpl; lia || apply Htrans.
Qed.

Lemma compareFolded_consistent : ConsistentCompare compareFolded.
Proof.
  split.
  - intros a. induction a as [|x a IH]; intros [|y b]; simpl; try done.
    rewrite (N.compare_antisym (foldCase x) (foldCase y)).
    destruct (foldCase x ?= foldCase y)%N; simpl; done || apply IH.
  - intros a. induction a as [|x a IH]; intros [|y b] [|z c]; simpl; try lia.
    destruct (N.compare_spec (foldCase x) (foldCase y)),
      (N.compare_spec (foldCase y) (foldCase z)),
      (N.compare_spec (foldCase x) (foldCase z)); lia || apply IH.
Qed.

Lemma StronglySorted_lookup {A} (R : A -> A -> Prop) (l : list A)
    (i j : nat) (a b : A) :
  StronglySorted R l -> i < j -> l !! i = Some a -> l !! j = Some b -> R a b.
Proof.
  intros Hs. revert i j. induction Hs as [|x l Hs IH Hall]; intros i j Hij Ha Hb.
  - done.
  - destruct j as [|j]; [lia |]. destruct i as [|i]; simpl in *.
    + injection Ha as <-. rewrite List.Forall_forall in Hall.
      apply Hall. apply list_elem_of_In. by eapply list_elem_of_lookup_2.
    + apply (IH i j); [lia | done | done].
Qed.

(** C9 (as amended). Both listings sort their entries with the same
    comparator. For a collator that is a consistent comparator, the
    listing is a rearrangement of the entries read in which every
    directory comes before every file and, within each group, names are
    in the collator's case-insensitive order; entries that compare equal
    keep the order in which they were read (the sort is stable; there
    is no tie-break on the raw names). *)
Theorem list_order_stable (localeCompare : list N -> list N -> Z)
    (entries : list DirEntry) :
  ConsistentCompare localeCompare ->
  let sorted := sortEntries localeCompare entries in
  sorted ≡ₚ entries
  /\ StronglySorted (fun a b => (compareEntries localeCompare a b <= 0)%Z) sorted
  /\ (forall i j a b,
        i < j -> sorted !! i = Some a -> sorted !! j = Some b ->
        (type a = File -> type b = File)
        /\ (type a = type b -> (localeCompare (name a) (name b) <= 0)%Z))
  /\ (forall x,
        List.filter (fun y => (compareEntries localeCompare x y =? 0)%Z) sorted
        = List.filter (fun y => (compareEntries localeCompare x y =? 0)%Z) entries)
  /\ (forall normalized dirents,
        listLocalEntries localeCompare normalized dirents
        = sortEntries localeCompare (omap (direntEntry normalized) dirents))
  /\ (forall prefix normalizedPath pages,
        listS3Entries localeCompare prefix normalizedPath pages
        = sortEntries localeCompare
            (concat (map (pageEntries prefix normalizedPath) pages))).
Proof.
  intros Hc sorted. pose proof (compareEntries_consistent _ Hc) as Hce.
  assert (StronglySorted
            (fun a b => (compareEntries localeCompare a b <= 0)%Z) sorted)
    as Hsorted by (by apply arraySort_sorted).
  split; [apply arraySort_Permutation |]. split; [done |].
  split; [|split; [|split; [done | done]]].
  - intros i j a b Hij Ha Hb.
    pose proof (StronglySorted_lookup _ _ _ _ _ _ Hsorted Hij Ha Hb) as Hle.
    unfold compareEntries in Hle.
    destruct (type a), (type b); simpl in Hle; (split; [done || lia | done || lia]).
  - intros x. by apply arraySort_stable.
Qed.

Lemma list_order_stable_witness :
  ConsistentCompare compareFolded
  /\ sortEntries compareFolded
       [ {| name := lit "b"; type := File; size := 1; mtime := 0 |};
         {| name := lit "Z"; type := Dir; size := 0; mtime := 0 |};
         {| name := lit "A"; type := File; size := 2; mtime := 0 |} ]
     ≡ₚ [ {| name := lit "b"; type := File; size := 1; mtime := 0 |};
          {| name := lit "Z"; type := Dir; size := 0; mtime := 0 |};
          {| name := lit "A"; type := File; size := 2; mtime := 0 |} ]
  /\ sortEntries compareFolded
       [ {| name := lit "b"; type := File; size := 1; mtime := 0 |};
         {| name := lit "Z"; type := Dir; size := 0; mtime := 0 |};
         {| name := lit "A"; type := File; size := 2; mtime := 0 |} ]
     = [ {| name := lit "Z"; type := Dir; size := 0; mtime := 0 |};
         {| name := lit "A"; type := File; size := 2; mtime := 0 |};
         {| name := lit "b"; type := File; size := 1; mtime := 0 |} ].
Proof.
  split; [exact compareFolded_consistent |].
  split; [|by vm_compute].
  apply (list_order_stable compareFolded _ compareFolded_consistent).
Defined.

(** Two names that differ only in case compare equal and stay in the
    order in which they were read, here against the raw order of their
    code units. *)
Lemma list_order_ties_keep_read_order :
  compareFolded (lit "a") (lit "A") = 0%Z
  /\ compareRaw (lit "A") (lit "a") = Lt
  /\ sortEntries compareFolded
       [ {| name := lit "a"; type := File; size := 1; mtime := 0 |};
         {| name := lit "A"; type := File; size := 2; mtime := 0 |} ]
     = [ {| name := lit "a"; type := File; size := 1; mtime := 0 |};
         {| name := lit "A"; type := File; size := 2; mtime := 0 |} ].
Proof. by vm_compute. Qed.

End ListingOrder.
